(** * modern_win32: process_information and the timer argument contract

    A shallow embedding of [src/modern_win32/process_information.cpp].
    Objects are records, raw handles and identifiers are integers, and the
    only effect the methods have on the operating system, closing a handle,
    is threaded through a small state monad over the trace of OS calls.
    Move-assignment and the comparison of two objects take references, so
    they are modelled over a stack of objects addressed by position. *)

From Stdlib Require Import ZArith String Lia.
From stdpp Require Import base numbers list.

Open Scope Z_scope.

(** ** Native types *)

(** [HANDLE] and [DWORD] of the Win32 ABI: an opaque pointer-sized value and
    an unsigned 32-bit identifier.  The code only stores, copies and compares
    them, so no arithmetic (and no wrap-around) is involved. *)
Definition HANDLE := Z.
Definition DWORD := Z.

(** ** The operating system seen by the handle wrappers *)

Inductive os_call : Type :=
  | CloseHandle (h : HANDLE).

(** Calls made so far, oldest first. *)
Definition trace := list os_call.

Definition OS (A : Type) : Type := trace -> A * trace.

Definition ret {A : Type} (a : A) : OS A := fun w => (a, w).

Definition bind {A B : Type} (m : OS A) (k : A -> OS B) : OS B :=
  fun w => let (a, w') := m w in k a w'.

Definition call (c : os_call) : OS unit := fun w => (tt, w ++ [c]).

Declare Scope os_scope.
Delimit Scope os_scope with os.
Notation "x <- m ;; k" := (bind m (fun x => k))
  (at level 100, m at next level, right associativity) : os_scope.
Notation "m ;; k" := (bind m (fun _ => k))
  (at level 100, right associativity) : os_scope.

(** ** Handle categories *)

(** What a handle category fixes: the value that stands for "no resource"
    and the test behind [operator bool].  The sentinel itself never passes
    the test. *)
Record handle_traits : Type := {
  invalid : HANDLE;
  is_valid : HANDLE -> bool;
  invalid_is_not_valid : is_valid invalid = false
}.

(** The Win32 reading used in the examples: the null handle is the stored
    sentinel, and neither null nor INVALID_HANDLE_VALUE counts as valid. *)
Definition win32_traits : handle_traits :=
  {| invalid := 0;
     is_valid := fun h => negb (h =? 0) && negb (h =? -1);
     invalid_is_not_valid := eq_refl |}.

Module unique_handle.

Record t : Type := make { m_handle : HANDLE }.

Section Category.
Variable T : handle_traits.

(** Modelled from the spec: the header of [unique_handle] is not among the
    sources.  [operator bool] is true iff the internal handle is not the
    null / invalid sentinel. *)
Definition op_bool (u : t) : bool := is_valid T (m_handle u).

(** Modelled from the spec: [native_handle()] is a read-only peek. *)
Definition native_handle (u : t) : HANDLE := m_handle u.

(** Modelled from the spec: [unique_handle::reset(native)] closes the
    currently owned handle, if any, then stores [native] and returns whether
    the new handle is valid.  The trace records the handle given to the
    category's closing policy; what that policy does with a pseudo-handle is
    its own affair. *)
Definition reset (u : t) (native : HANDLE) : OS (bool * t) :=
  ((if op_bool u then call (CloseHandle (m_handle u)) else ret tt) ;;
   let u' := make native in
   ret (op_bool u', u'))%os.

(** Modelled from the spec: [reset()] without an argument stores the
    category's sentinel. *)
Definition reset_default (u : t) : OS (bool * t) := reset u (invalid T).

(** Modelled from the spec: [release()] returns the raw handle and clears
    the internal state without closing anything. *)
Definition release (u : t) : HANDLE * t := (m_handle u, make (invalid T)).

(** Modelled from the spec: a default-constructed wrapper owns nothing. *)
Definition empty : t := make (invalid T).

(** Modelled from the spec: the destructor always closes if owned. *)
Definition dtor (u : t) : OS unit :=
  if op_bool u then call (CloseHandle (m_handle u)) else ret tt.

End Category.

(** Modelled from the spec: equality compares the raw handle values. *)
Definition eqb (a b : t) : bool := m_handle a =? m_handle b.

End unique_handle.

(** ** process_information *)

(** The native [PROCESS_INFORMATION] structure. *)
Record PROCESS_INFORMATION : Type := {
  hProcess : HANDLE;
  hThread : HANDLE;
  dwProcessId : DWORD;
  dwThreadId : DWORD
}.

Module process_information.

(** [deconstruct_type]: (process id, thread id, process handle, thread
    handle), read with [std::get<0>] to [std::get<3>]. *)
Definition deconstruct_type : Type := DWORD * DWORD * HANDLE * HANDLE.

Definition get0 (d : deconstruct_type) : DWORD := d.1.1.1.
Definition get1 (d : deconstruct_type) : DWORD := d.1.1.2.
Definition get2 (d : deconstruct_type) : HANDLE := d.1.2.
Definition get3 (d : deconstruct_type) : HANDLE := d.2.

Record t : Type := make {
  m_process_thread_id : DWORD;
  m_process : unique_handle.t;
  m_process_thread_handle : unique_handle.t
}.

(** Assignment to one member. *)
Definition set_thread_id (v : DWORD) (p : t) : t :=
  make v (m_process p) (m_process_thread_handle p).
Definition set_process (v : unique_handle.t) (p : t) : t :=
  make (m_process_thread_id p) v (m_process_thread_handle p).
Definition set_thread_handle (v : unique_handle.t) (p : t) : t :=
  make (m_process_thread_id p) (m_process p) v.

(** The order in which the arguments of [std::make_tuple] in [release()]
    are evaluated is unspecified; all that can be observed is whether the
    process id is queried before or after the process handle is released. *)
Inductive argument_order : Type :=
  | id_query_first
  | handle_release_first.

Section Methods.
(** The categories of the process handle and of the thread handle. *)
Variables PT TT : handle_traits.
(** The OS query behind [process_handle::get_process_id]; [None] when the
    query fails. *)
Variable GetProcessId : HANDLE -> option DWORD.

(** Modelled from the spec: [process_handle::get_process_id()] is [nullopt]
    if the handle is invalid or the OS query fails. *)
Definition process_handle_get_process_id (u : unique_handle.t) : option DWORD :=
  if unique_handle.op_bool PT u then GetProcessId (unique_handle.m_handle u)
  else None.

(** [process_information::process_information()] *)
Definition ctor_default : t :=
  make 0 (unique_handle.empty PT) (unique_handle.empty TT).

(** [process_information(native_handle_type const&)] *)
Definition from_native (pi : PROCESS_INFORMATION) : t :=
  make (dwThreadId pi) (unique_handle.make (hProcess pi))
       (unique_handle.make (hThread pi)).

(** [operator bool()] *)
Definition op_bool (p : t) : bool :=
  unique_handle.op_bool PT (m_process p)
  && unique_handle.op_bool TT (m_process_thread_handle p).

(** [native_handle()] *)
Definition native_handle (p : t) : PROCESS_INFORMATION :=
  {| hProcess := unique_handle.native_handle (m_process p);
     hThread := unique_handle.native_handle (m_process_thread_handle p);
     dwProcessId :=
       if unique_handle.op_bool PT (m_process p)
       then default 0 (process_handle_get_process_id (m_process p))
       else 0;
     dwThreadId := m_process_thread_id p |}.

(** [get_process_id()] *)
Definition get_process_id (p : t) : option DWORD :=
  process_handle_get_process_id (m_process p).

(** [get_native_process_handle()] *)
Definition get_native_process_handle (p : t) : HANDLE :=
  unique_handle.native_handle (m_process p).

(** [get_native_process_thread_handle()] *)
Definition get_native_process_thread_handle (p : t) : HANDLE :=
  unique_handle.native_handle (m_process_thread_handle p).

(** [get_native_process_thread_id()] *)
Definition get_native_process_thread_id (p : t) : DWORD :=
  m_process_thread_id p.

(** [close()] *)
Definition close (p : t) : OS t :=
  (if op_bool p then
     let p := set_thread_id 0 p in
     r <- unique_handle.reset_default PT (m_process p) ;;
     let p := set_process r.2 p in
     r <- unique_handle.reset_default TT (m_process_thread_handle p) ;;
     let p := set_thread_handle r.2 p in
     ret p
   else ret p)%os.

(** [release()]: the decomposed tuple and the object left behind. *)
Definition release (order : argument_order) (p : t) : deconstruct_type * t :=
  let hp := unique_handle.release PT (m_process p) in
  let ht := unique_handle.release TT (m_process_thread_handle p) in
  let id :=
    match order with
    | id_query_first => process_handle_get_process_id (m_process p)
    | handle_release_first => process_handle_get_process_id hp.2
    end in
  ((default 0 id, m_process_thread_id p, hp.1, ht.1), make 0 hp.2 ht.2).

(** The three field comparisons of [operator==(process_information const&,
    process_information const&)], without the address test in front. *)
Definition same_fields (lhs rhs : t) : bool :=
  (m_process_thread_id lhs =? m_process_thread_id rhs)
  && unique_handle.eqb (m_process lhs) (m_process rhs)
  && unique_handle.eqb (m_process_thread_handle lhs) (m_process_thread_handle rhs).

(** [operator==(process_information const&, PROCESS_INFORMATION const&)] *)
Definition eq_native (lhs : t) (rhs : PROCESS_INFORMATION) : bool :=
  (m_process_thread_id lhs =? dwThreadId rhs)
  && (unique_handle.native_handle (m_process lhs) =? hProcess rhs)
  && (unique_handle.native_handle (m_process_thread_handle lhs) =? hThread rhs).

Definition ne_native (lhs : t) (rhs : PROCESS_INFORMATION) : bool :=
  negb (eq_native lhs rhs).

(** [operator==(PROCESS_INFORMATION const&, process_information const&)] *)
Definition native_eq (lhs : PROCESS_INFORMATION) (rhs : t) : bool :=
  eq_native rhs lhs.

Definition native_ne (lhs : PROCESS_INFORMATION) (rhs : t) : bool :=
  negb (native_eq lhs rhs).

(** [operator==(process_information const&, deconstruct_type const&)] *)
Definition eq_deconstructed (lhs : t) (rhs : deconstruct_type) : bool :=
  (m_process_thread_id lhs =? get1 rhs)
  && (unique_handle.native_handle (m_process lhs) =? get2 rhs)
  && (unique_handle.native_handle (m_process_thread_handle lhs) =? get3 rhs).

Definition ne_deconstructed (lhs : t) (rhs : deconstruct_type) : bool :=
  negb (eq_deconstructed lhs rhs).

(** [operator==(deconstruct_type const&, process_information const&)] *)
Definition deconstructed_eq (lhs : deconstruct_type) (rhs : t) : bool :=
  eq_deconstructed rhs lhs.

Definition deconstructed_ne (lhs : deconstruct_type) (rhs : t) : bool :=
  negb (deconstructed_eq lhs rhs).

(** The normalized triple every comparison is about. *)
Definition triple (p : t) : DWORD * HANDLE * HANDLE :=
  (m_process_thread_id p,
   unique_handle.m_handle (m_process p),
   unique_handle.m_handle (m_process_thread_handle p)).

Definition triple_of_native (s : PROCESS_INFORMATION) : DWORD * HANDLE * HANDLE :=
  (dwThreadId s, hProcess s, hThread s).

Definition triple_of_deconstructed (d : deconstruct_type) : DWORD * HANDLE * HANDLE :=
  (get1 d, get2 d, get3 d).

(** The resources an object currently owns, as the closing calls they
    cost: the process handle, then the thread handle, each if valid. *)
Definition owned (p : t) : trace :=
  (if unique_handle.op_bool PT (m_process p)
   then [CloseHandle (unique_handle.m_handle (m_process p))] else [])
  ++ (if unique_handle.op_bool TT (m_process_thread_handle p)
      then [CloseHandle (unique_handle.m_handle (m_process_thread_handle p))]
      else []).

(** [reset(deconstruct_type&&)] *)
Definition reset_deconstructed (p : t) (deconstructed : deconstruct_type)
    : OS (bool * t) :=
  (if eq_deconstructed p deconstructed then ret (op_bool p, p)
   else
     p <- close p ;;
     let p := set_thread_id (get1 deconstructed) p in
     r <- unique_handle.reset PT (m_process p) (get2 deconstructed) ;;
     let p := set_process r.2 p in
     r <- unique_handle.reset TT (m_process_thread_handle p) (get3 deconstructed) ;;
     let p := set_thread_handle r.2 p in
     ret (op_bool p, p))%os.

(** [reset(native_handle_type const&)] *)
Definition reset_native (p : t) (handle : PROCESS_INFORMATION)
    : OS (bool * t) :=
  (if eq_native p handle then ret (op_bool p, p)
   else
     p <- close p ;;
     let p := set_thread_id (dwThreadId handle) p in
     r <- unique_handle.reset PT (m_process p) (hProcess handle) ;;
     let p := set_process r.2 p in
     r <- unique_handle.reset TT (m_process_thread_handle p) (hThread handle) ;;
     let p := set_thread_handle r.2 p in
     ret (op_bool p, p))%os.

(** *** The statements of reset, one at a time

    Past the guard both overloads of [reset] run the same four statements
    (lines 115, 118, 119, 120 and 129 to 132): [close()], the assignment of
    the thread id, [m_process.reset] and [m_process_thread_handle.reset].
    [reset_progress] keeps the object and the trace as they stand after
    each of them, so that what is closed when can be read off. *)
Record progress : Type := {
  after_close : t * trace;
  after_thread_id : t * trace;
  after_process : t * trace;
  after_thread_handle : t * trace
}.

Definition reset_progress (p : t) (tid : DWORD) (hp ht : HANDLE) (w : trace)
    : progress :=
  let s1 := close p w in
  let p2 := set_thread_id tid s1.1 in
  let r3 := unique_handle.reset PT (m_process p2) hp s1.2 in
  let p3 := set_process r3.1.2 p2 in
  let r4 := unique_handle.reset TT (m_process_thread_handle p3) ht r3.2 in
  let p4 := set_thread_handle r4.1.2 p3 in
  {| after_close := s1;
     after_thread_id := (p2, s1.2);
     after_process := (p3, r3.2);
     after_thread_handle := (p4, r4.2) |}.

(** What [reset] returns once the last statement has run. *)
Definition finish (pr : progress) : bool * t * trace :=
  (op_bool (after_thread_handle pr).1,
   (after_thread_handle pr).1,
   (after_thread_handle pr).2).

(** "First closes the currently owned resources and only then adopts": every
    handle that [reset] closes is closed by the time [close()] has returned,
    that is before the thread id, the first of the incoming values, is
    stored. *)
Definition closes_before_adopting (p : t) (tid : DWORD) (hp ht : HANDLE)
    (w : trace) : Prop :=
  (after_close (reset_progress p tid hp ht w)).2 =
  (after_thread_handle (reset_progress p tid hp ht w)).2.

(** [process_information(process_information&&)]: the new object and what
    is left of [other].  The handle members of the new object start out
    default-constructed; its thread id is assigned before it is ever read. *)
Definition ctor_move (order : argument_order) (other : t) : OS (t * t) :=
  (let this := ctor_default in
   let released := release order other in
   let this := set_thread_id (get1 released.1) this in
   r <- unique_handle.reset PT (m_process this) (get2 released.1) ;;
   let this := set_process r.2 this in
   r <- unique_handle.reset TT (m_process_thread_handle this) (get3 released.1) ;;
   let this := set_thread_handle r.2 this in
   ret (this, released.2))%os.

(** [~process_information()]: [close()], then the members are destroyed in
    reverse order of declaration. *)
Definition dtor (p : t) : OS unit :=
  (p1 <- close p ;;
   unique_handle.dtor TT (m_process_thread_handle p1) ;;
   unique_handle.dtor PT (m_process p1))%os.

End Methods.

(** *** Objects behind references

    Move-assignment, the comparison of two objects and the swaps take
    references, and two references may name one object.  Objects therefore
    live on a stack addressed by position; a local object of a call is
    pushed when it is constructed and popped when it is destroyed. *)

Record machine : Type := {
  stack : list t;
  os : trace
}.

#[global] Instance t_inhabited : Inhabited t :=
  populate (make 0 (unique_handle.make 0) (unique_handle.make 0)).

Definition deref (m : machine) (a : nat) : t := stack m !!! a.

Definition assign_at (m : machine) (a : nat) (p : t) : machine :=
  {| stack := <[a := p]> (stack m); os := os m |}.

(** A call that never returns is cut off by the fuel. *)
Inductive outcome (A : Type) : Type :=
  | Done (a : A)
  | OutOfFuel.
Arguments Done {A} a.
Arguments OutOfFuel {A}.

(** [operator==(process_information const&, process_information const&)] *)
Definition op_eq (m : machine) (lhs rhs : nat) : bool :=
  (lhs =? rhs)%nat || same_fields (deref m lhs) (deref m rhs).

(** [operator!=(process_information const&, process_information const&)] *)
Definition op_ne (m : machine) (lhs rhs : nat) : bool :=
  negb (op_eq m lhs rhs).

(** The exchange of one member of [lhs] with the same member of [rhs]:
    [tmp = lhs.x; lhs.x = rhs.x; rhs.x = tmp]. *)
Definition swap_member {X : Type} (get : t -> X) (set : X -> t -> t)
    (m : machine) (lhs rhs : nat) : machine :=
  let tmp := get (deref m lhs) in
  let m1 := assign_at m lhs (set (get (deref m rhs)) (deref m lhs)) in
  assign_at m1 rhs (set tmp (deref m1 rhs)).

(** [swap(process_information&, process_information&)], the friend. *)
Definition swap (m : machine) (lhs rhs : nat) : machine :=
  let m1 := swap_member m_process_thread_id set_thread_id m lhs rhs in
  let m2 := swap_member m_process set_process m1 lhs rhs in
  swap_member m_process_thread_handle set_thread_handle m2 lhs rhs.

Section References.
Variables PT TT : handle_traits.
Variable GetProcessId : HANDLE -> option DWORD.
Variable order : argument_order.

(** A local object move-constructed from the object at [other]; its address
    is the old height of the stack. *)
Definition construct_from (other : nat) (m : machine) : machine :=
  let r := ctor_move PT TT GetProcessId order (deref m other) (os m) in
  {| stack := <[other := r.1.2]> (stack m) ++ [r.1.1]; os := r.2 |}.

(** The innermost local object goes out of scope. *)
Definition destroy_top (m : machine) : machine :=
  let a := pred (length (stack m)) in
  let r := dtor PT TT (deref m a) (os m) in
  {| stack := take a (stack m); os := r.2 |}.

(** [std::swap<process_information>], the generic one of [<utility>], which
    is what the qualified call to [std::swap] in [operator=] names:
    [T tmp(std::move(a)); a = std::move(b); b = std::move(tmp);]. *)
Definition std_swap (assign : nat -> nat -> machine -> outcome machine)
    (a b : nat) (m : machine) : outcome machine :=
  let tmp := length (stack m) in
  let m1 := construct_from a m in
  match assign a b m1 with
  | OutOfFuel => OutOfFuel
  | Done m2 =>
      match assign b tmp m2 with
      | OutOfFuel => OutOfFuel
      | Done m3 => Done (destroy_top m3)
      end
  end.

(** [operator=(process_information&&)] *)
Fixpoint move_assign (fuel : nat) (this other : nat) (m : machine)
    : outcome machine :=
  match fuel with
  | O => OutOfFuel
  | S fuel' =>
      if op_eq m this other then Done m
      else std_swap (move_assign fuel') this other m
  end.

End References.

End process_information.

(** ** Timers *)

Module timer.

Inductive kind : Type :=
  | delayed_callback
  | synchronization_timer.

(** [std::invalid_argument] with its [what()]. *)
Inductive exception : Type :=
  | invalid_argument (what : string).

Inductive phase : Type :=
  | idle
  | started (due_time period : Z).

Record t (State : Type) : Type := make {
  which : kind;
  state : State;
  current : phase
}.
Arguments make {State} which state current.
Arguments which {State} t.
Arguments state {State} t.
Arguments current {State} t.

(** Modelled from the spec: [modern_win32/threading/timer.h], which defines
    [delayed_callback::start] and [synchronization_timer::start], is not
    among the sources; only its tests are.  [start(due_time, period)] first
    validates [due_time >= 0], then [period >= 0], each failure raising an
    invalid-argument condition with its fixed message, and otherwise arms
    the timer.  Durations are counts of milliseconds. *)
Definition start {State : Type} (tm : t State) (due_time period : Z)
    : exception + t State :=
  if due_time <? 0 then
    inl (invalid_argument "due_time must be greater than or equal to zero")
  else if period <? 0 then
    inl (invalid_argument "period must be greater than or equal to zero")
  else inr (make (which tm) (state tm) (started due_time period)).

End timer.

(** ** Sample values *)

Module samples.

(** An OS in which only handle 5 names a process, with id 77. *)
Definition query (h : HANDLE) : option DWORD :=
  if h =? 5 then Some 77 else None.

(** What process creation fills in for that process. *)
Definition created : PROCESS_INFORMATION :=
  {| hProcess := 5; hThread := 7; dwProcessId := 77; dwThreadId := 1 |}.

Definition valid : process_information.t :=
  process_information.from_native created.

(** Only the process handle is valid. *)
Definition half_valid : process_information.t :=
  process_information.make 1 (unique_handle.make 5) (unique_handle.make 0).

(** Two objects: a valid one at address 0, a default-constructed one at
    address 1. *)
Definition two_objects : process_information.machine :=
  {| process_information.stack :=
       [valid; process_information.ctor_default win32_traits win32_traits];
     process_information.os := [] |}.

(** [delayed_callback<int> delay(callback, 3)], as the tests build it. *)
Definition delay : timer.t Z := timer.make timer.delayed_callback 3 timer.idle.

Definition sync : timer.t Z := timer.make timer.synchronization_timer 3 timer.idle.

End samples.

(** * Properties *)

Import process_information.

Section ProcessInformation.
Variables PT TT : handle_traits.
Variable GetProcessId : HANDLE -> option DWORD.

Local Abbreviation op_bool := (process_information.op_bool PT TT).
Local Abbreviation close := (process_information.close PT TT).
Local Abbreviation empty_object :=
  (make 0 (unique_handle.make (invalid PT)) (unique_handle.make (invalid TT))).

Lemma empty_object_is_empty : op_bool empty_object = false.
Proof.
  unfold process_information.op_bool, unique_handle.op_bool; simpl.
  now rewrite (invalid_is_not_valid PT).
Qed.

Lemma close_valid (p : t) (w : trace) :
  op_bool p = true ->
  close p w =
    (empty_object,
     w ++ [CloseHandle (unique_handle.m_handle (m_process p));
           CloseHandle (unique_handle.m_handle (m_process_thread_handle p))]).
Proof.
  intros Hp. unfold process_information.close. rewrite Hp.
  apply andb_true_iff in Hp as [H1 H2].
  unfold bind, unique_handle.reset_default, unique_handle.reset, bind, call,
    ret, unique_handle.op_bool in *. simpl.
  rewrite H1, H2. simpl. now rewrite <- app_assoc.
Qed.

Lemma close_not_valid (p : t) (w : trace) :
  op_bool p = false -> close p w = (p, w).
Proof.
  intros Hp. unfold process_information.close. now rewrite Hp.
Qed.

(** C7: [operator bool()] is true if and only if both the owned process
    handle and the owned thread handle are valid. *)
Theorem op_bool_iff_both_valid (p : t) :
  op_bool p = true <->
  unique_handle.op_bool PT (m_process p) = true
  /\ unique_handle.op_bool TT (m_process_thread_handle p) = true.
Proof.
  unfold process_information.op_bool. apply andb_true_iff.
Qed.

(** C10: on an object whose [operator bool()] is false, the half-valid
    states included, [close()] changes no field and closes no handle. *)
Theorem close_frame (p : t) (w : trace) :
  op_bool p = false -> close p w = (p, w).
Proof.
  exact (close_not_valid p w).
Qed.

(** C1: [close()] on a non-empty object zeroes the thread id and closes the
    process handle and the thread handle, once each; on an empty object it
    does nothing; and a second [close()] in a row finds the object empty
    ([operator bool()] false), leaves it as it is and closes nothing more. *)
Theorem close_idempotent (p : t) (w : trace) :
  (op_bool p = true ->
   close p w =
     (empty_object,
      w ++ [CloseHandle (unique_handle.m_handle (m_process p));
            CloseHandle (unique_handle.m_handle (m_process_thread_handle p))]))
  /\ (op_bool p = false -> close p w = (p, w))
  /\ (let once := close p w in
      let twice := close once.1 once.2 in
      op_bool once.1 = false /\ twice = once).
Proof.
  split; [apply close_valid|]. split; [apply close_not_valid|].
  cbv zeta. destruct (op_bool p) eqn:Hp.
  - rewrite (close_valid _ _ Hp). simpl.
    split; [apply empty_object_is_empty|].
    apply close_not_valid, empty_object_is_empty.
  - rewrite (close_not_valid _ _ Hp). simpl.
    split; [exact Hp|]. now apply close_not_valid.
Qed.

(** *** Comparisons *)

Lemma same_fields_triple (lhs rhs : t) :
  same_fields lhs rhs = true <-> triple lhs = triple rhs.
Proof.
  unfold same_fields, unique_handle.eqb, triple.
  rewrite !andb_true_iff, !Z.eqb_eq. split.
  - intros [[-> ->] ->]. reflexivity.
  - intros [= -> -> ->]. auto.
Qed.

Lemma eq_native_triple (lhs : t) (rhs : PROCESS_INFORMATION) :
  eq_native lhs rhs = true <-> triple lhs = triple_of_native rhs.
Proof.
  unfold eq_native, unique_handle.native_handle, triple, triple_of_native.
  rewrite !andb_true_iff, !Z.eqb_eq. split.
  - intros [[-> ->] ->]. reflexivity.
  - intros [= -> -> ->]. auto.
Qed.

Lemma eq_deconstructed_triple (lhs : t) (rhs : deconstruct_type) :
  eq_deconstructed lhs rhs = true <-> triple lhs = triple_of_deconstructed rhs.
Proof.
  unfold eq_deconstructed, unique_handle.native_handle, triple,
    triple_of_deconstructed.
  rewrite !andb_true_iff, !Z.eqb_eq. split.
  - intros [[-> ->] ->]. reflexivity.
  - intros [= -> -> ->]. auto.
Qed.

Lemma op_eq_triple (m : machine) (lhs rhs : nat) :
  op_eq m lhs rhs = true <-> triple (deref m lhs) = triple (deref m rhs).
Proof.
  unfold op_eq. rewrite orb_true_iff, same_fields_triple, Nat.eqb_eq.
  split; [intros [->|H]; auto | auto].
Qed.

(** C4: each of the [==] operators, between two objects, between an object
    and a native structure and between an object and a decomposed tuple, in
    either direction, holds exactly when the (thread id, process handle,
    thread handle) triples are equal, and each [!=] is its negation; the
    process id of the structure or of the tuple plays no part. *)
Theorem comparisons_by_triple
    (m : machine) (a b : nat) (p : t) (s : PROCESS_INFORMATION)
    (d : deconstruct_type) :
  (op_eq m a b = true <-> triple (deref m a) = triple (deref m b))
  /\ (op_eq m b a = true <-> triple (deref m a) = triple (deref m b))
  /\ (eq_native p s = true <-> triple p = triple_of_native s)
  /\ (native_eq s p = true <-> triple p = triple_of_native s)
  /\ (eq_deconstructed p d = true <-> triple p = triple_of_deconstructed d)
  /\ (deconstructed_eq d p = true <-> triple p = triple_of_deconstructed d)
  /\ op_ne m a b = negb (op_eq m a b)
  /\ ne_native p s = negb (eq_native p s)
  /\ native_ne s p = negb (eq_native p s)
  /\ ne_deconstructed p d = negb (eq_deconstructed p d)
  /\ deconstructed_ne d p = negb (eq_deconstructed p d).
Proof.
  repeat split; try reflexivity;
    try (apply op_eq_triple); try (apply eq_native_triple);
    try (apply eq_deconstructed_triple).
  - intros H. symmetry. now apply op_eq_triple.
  - intros H. apply op_eq_triple. now symmetry.
Qed.

(** *** Round trips *)

(** C5: for a structure filled in by the OS, so that its process id is the
    one the OS reports for its process handle, wrapping it and asking for
    [native_handle()] gives back the thread id and both handles, and the
    process id too unless the process handle is invalid or the id query
    fails, in which case the process id field is 0. *)
Theorem native_handle_round_trip (s : PROCESS_INFORMATION) :
  (forall id, GetProcessId (hProcess s) = Some id -> dwProcessId s = id) ->
  let r := native_handle PT GetProcessId (from_native s) in
  hProcess r = hProcess s
  /\ hThread r = hThread s
  /\ dwThreadId r = dwThreadId s
  /\ dwProcessId r =
       (if is_valid PT (hProcess s)
        then match GetProcessId (hProcess s) with
             | Some _ => dwProcessId s
             | None => 0
             end
        else 0).
Proof.
  intros Hos. cbv zeta. repeat split.
  unfold native_handle, from_native, process_handle_get_process_id,
    unique_handle.op_bool. simpl.
  destruct (is_valid PT (hProcess s)); [|reflexivity].
  destruct (GetProcessId (hProcess s)) as [id|] eqn:Hid; simpl; [|reflexivity].
  symmetry. now apply Hos.
Qed.

Lemma release_leaves_empty (order : argument_order) (p : t) :
  (release PT TT GetProcessId order p).2 = empty_object
  /\ triple_of_deconstructed (release PT TT GetProcessId order p).1 = triple p.
Proof.
  unfold release, unique_handle.release, triple_of_deconstructed, triple.
  simpl. split; reflexivity.
Qed.

(** Past the guard, either overload closes what the object owns and leaves
    it holding the incoming values. *)
Ltac reset_past_guard p :=
  unfold bind at 1;
  let Hp := fresh "Hp" in
  destruct (process_information.op_bool PT TT p) eqn:Hp;
  [ rewrite (close_valid _ _ Hp);
    apply andb_true_iff in Hp as [? ?];
    unfold owned, bind, unique_handle.reset, bind, call, ret,
      process_information.op_bool, unique_handle.op_bool in *; simpl;
    repeat match goal with H : is_valid _ _ = true |- _ => rewrite H end;
    rewrite (invalid_is_not_valid PT), (invalid_is_not_valid TT);
    reflexivity
  | rewrite (close_not_valid _ _ Hp);
    unfold owned, bind, unique_handle.reset, bind, call, ret,
      process_information.op_bool, unique_handle.op_bool in *; simpl;
    destruct (is_valid PT (unique_handle.m_handle (m_process p)));
    destruct (is_valid TT (unique_handle.m_handle (m_process_thread_handle p)));
    simpl in *; try discriminate; rewrite ?app_nil_r, <- ?app_assoc;
    reflexivity ].

Lemma reset_deconstructed_unequal (p : t) (d : deconstruct_type) (w : trace) :
  eq_deconstructed p d = false ->
  reset_deconstructed PT TT p d w =
    (is_valid PT (get2 d) && is_valid TT (get3 d),
     make (get1 d) (unique_handle.make (get2 d)) (unique_handle.make (get3 d)),
     w ++ owned PT TT p).
Proof.
  intros H. unfold reset_deconstructed. rewrite H. reset_past_guard p.
Qed.

Lemma reset_native_unequal (p : t) (s : PROCESS_INFORMATION) (w : trace) :
  eq_native p s = false ->
  reset_native PT TT p s w =
    (is_valid PT (hProcess s) && is_valid TT (hThread s),
     make (dwThreadId s) (unique_handle.make (hProcess s))
          (unique_handle.make (hThread s)),
     w ++ owned PT TT p).
Proof.
  intros H. unfold reset_native. rewrite H. reset_past_guard p.
Qed.

Lemma triple_inj (p q : t) : triple p = triple q -> p = q.
Proof.
  destruct p as [tp [hp] [ht]], q as [tq [hq] [hq']]. unfold triple; simpl.
  now intros [= -> -> ->].
Qed.

Lemma owned_empty_object : owned PT TT empty_object = [].
Proof.
  unfold owned, unique_handle.op_bool; simpl.
  now rewrite (invalid_is_not_valid PT), (invalid_is_not_valid TT).
Qed.

(** The outcome of [reset], order aside: both overloads do nothing and
    return the current validity when the object already equals the incoming
    value; otherwise every resource the object owns is closed, the incoming
    thread id and handles are what the object holds afterwards, and the
    validity of that new state is returned. *)
Theorem reset_closes_then_adopts
    (p : t) (d : deconstruct_type) (s : PROCESS_INFORMATION) (w : trace) :
  (eq_deconstructed p d = true ->
   reset_deconstructed PT TT p d w = (op_bool p, p, w))
  /\ (eq_deconstructed p d = false ->
      let adopted :=
        make (get1 d) (unique_handle.make (get2 d)) (unique_handle.make (get3 d)) in
      reset_deconstructed PT TT p d w =
        (op_bool adopted, adopted, w ++ owned PT TT p))
  /\ (eq_native p s = true ->
      reset_native PT TT p s w = (op_bool p, p, w))
  /\ (eq_native p s = false ->
      let adopted :=
        make (dwThreadId s) (unique_handle.make (hProcess s))
             (unique_handle.make (hThread s)) in
      reset_native PT TT p s w =
        (op_bool adopted, adopted, w ++ owned PT TT p)).
Proof.
  split; [intros H; unfold reset_deconstructed; now rewrite H|].
  split; [exact (reset_deconstructed_unequal p d w)|].
  split; [intros H; unfold reset_native; now rewrite H|].
  exact (reset_native_unequal p s w).
Qed.

(** C3: [release()] followed at once by [reset()] of the tuple it returned
    restores the object: it compares equal to its value before the release,
    field by field, nothing is closed on the way, and [reset] returns the
    validity the object had. *)
Theorem release_then_reset_restores
    (order : argument_order) (p : t) (w : trace) :
  let released := release PT TT GetProcessId order p in
  let restored := reset_deconstructed PT TT released.2 released.1 w in
  same_fields restored.1.2 p = true
  /\ op_eq {| stack := [restored.1.2; p]; os := restored.2 |} 0 1 = true
  /\ restored.1.2 = p
  /\ restored.1.1 = op_bool p
  /\ restored.2 = w.
Proof.
  cbv zeta.
  destruct (release_leaves_empty order p) as [He Ht].
  set (r := release PT TT GetProcessId order p) in *.
  assert (Hres : reset_deconstructed PT TT r.2 r.1 w = (op_bool p, p, w)).
  { rewrite He.
    destruct (eq_deconstructed empty_object r.1) eqn:Heq.
    - unfold reset_deconstructed. rewrite Heq.
      apply eq_deconstructed_triple in Heq. rewrite Ht in Heq.
      apply triple_inj in Heq. now rewrite <- Heq.
    - rewrite (reset_deconstructed_unequal _ _ _ Heq), owned_empty_object,
        app_nil_r.
      assert (Hp : make (get1 r.1) (unique_handle.make (get2 r.1))
                     (unique_handle.make (get3 r.1)) = p).
      { apply triple_inj. exact Ht. }
      rewrite Hp. subst r. reflexivity. }
  rewrite Hres. simpl.
  assert (Hs : same_fields p p = true) by now apply same_fields_triple.
  repeat split; assumption.
Qed.

End ProcessInformation.

(** ** Move-assignment *)

Section Assignment.
Variables PT TT : handle_traits.
Variable GetProcessId : HANDLE -> option DWORD.
Variable order : argument_order.

Local Abbreviation empty_object :=
  (make 0 (unique_handle.make (invalid PT)) (unique_handle.make (invalid TT))).
Local Abbreviation construct_from :=
  (process_information.construct_from PT TT GetProcessId order).
Local Abbreviation move_assign :=
  (process_information.move_assign PT TT GetProcessId order).
Local Abbreviation std_swap :=
  (process_information.std_swap PT TT GetProcessId order).

(** Move construction empties its source, gives the new object the value
    the source had, and closes nothing. *)
Lemma construct_from_spec (a : nat) (m : machine) :
  construct_from a m =
    {| stack := <[a := empty_object]> (stack m) ++ [deref m a];
       os := os m |}.
Proof.
  unfold process_information.construct_from, ctor_move, release,
    unique_handle.release, unique_handle.reset, unique_handle.empty,
    unique_handle.op_bool, bind, call, ret. simpl.
  rewrite (invalid_is_not_valid PT), (invalid_is_not_valid TT). simpl.
  destruct (deref m a) as [tid [hp] [ht]]. reflexivity.
Qed.

Lemma op_eq_false (m : machine) (a b : nat) :
  op_eq m a b = false ->
  a <> b /\ same_fields (deref m a) (deref m b) = false.
Proof.
  unfold op_eq. intros [H1 H2]%orb_false_iff.
  split; [now apply Nat.eqb_neq | exact H2].
Qed.

Lemma same_fields_sym (p q : t) : same_fields p q = same_fields q p.
Proof.
  unfold same_fields, unique_handle.eqb.
  now rewrite (Z.eqb_sym (m_process_thread_id p)),
    (Z.eqb_sym (unique_handle.m_handle (m_process p))),
    (Z.eqb_sym (unique_handle.m_handle (m_process_thread_handle p))).
Qed.

(** Move-assignment between two objects that do not compare equal never
    returns: the generic [std::swap] it calls move-assigns in turn, and the
    operands of one of those assignments differ again. *)
Lemma move_assign_diverges (fuel : nat) :
  forall (m : machine) (a b : nat),
    (a < length (stack m))%nat -> (b < length (stack m))%nat ->
    op_eq m a b = false ->
    move_assign fuel a b m = OutOfFuel.
Proof.
  induction fuel as [|fuel IH]; intros m a b Ha Hb Hne; [reflexivity|].
  simpl. rewrite Hne. unfold process_information.std_swap.
  rewrite construct_from_spec.
  set (m1 := {| stack := <[a:=empty_object]> (stack m) ++ [deref m a];
                os := os m |}).
  assert (Hlen : length (stack m1) = S (length (stack m))).
  { unfold m1; simpl. rewrite length_app, length_insert. simpl. lia. }
  destruct (op_eq_false _ _ _ Hne) as [Hab Hf].
  destruct (op_eq m1 a b) eqn:H1.
  - destruct fuel as [|fuel']; [reflexivity|].
    change (move_assign (S fuel') a b m1) with
      (if op_eq m1 a b then Done m1
       else std_swap (move_assign fuel') a b m1).
    rewrite H1.
    rewrite (IH m1 b (length (stack m))); [reflexivity | lia | lia |].
    unfold op_eq. apply orb_false_iff. split.
    + apply Nat.eqb_neq. lia.
    + unfold deref, m1; simpl.
      rewrite (list_lookup_total_middle _ [] _ (length (stack m)))
        by now rewrite length_insert.
      rewrite lookup_total_app_l by now rewrite length_insert.
      rewrite list_lookup_total_insert_ne by exact Hab.
      rewrite same_fields_sym. exact Hf.
  - rewrite (IH m1 a b); [reflexivity | lia | lia | exact H1].
Qed.

(** C2: move-assignment is a no-op when the two objects already compare
    equal, self-assignment included: the stack of objects and the trace of
    OS calls are left as they were.  When they do not compare equal the
    call does not return, whatever the fuel: no swap is ever completed. *)
Theorem move_assign_on_the_code (fuel : nat) (m : machine) (this other : nat) :
  (this < length (stack m))%nat -> (other < length (stack m))%nat ->
  move_assign (S fuel) this other m =
    if op_eq m this other then Done m else OutOfFuel.
Proof.
  intros Ha Hb. destruct (op_eq m this other) eqn:He.
  - simpl. now rewrite He.
  - now apply move_assign_diverges.
Qed.

(** X1: The friend [swap] exchanges the contents of two distinct objects,
    touches no other object and closes nothing; on one object it changes
    nothing. *)
Theorem friend_swap_exchanges (m : machine) (lhs rhs : nat) :
  (lhs < length (stack m))%nat -> (rhs < length (stack m))%nat ->
  deref (swap m lhs rhs) lhs = deref m rhs
  /\ deref (swap m lhs rhs) rhs = deref m lhs
  /\ (forall c, c <> lhs -> c <> rhs -> deref (swap m lhs rhs) c = deref m c)
  /\ os (swap m lhs rhs) = os m.
Proof.
  intros Hl Hr.
  assert (Hget : forall (n : machine) (a c : nat) (p : t),
             (a < length (stack n))%nat ->
             deref (assign_at n a p) c = if decide (a = c) then p else deref n c).
  { intros n a c p Hlt. unfold deref, assign_at; simpl.
    rewrite list_lookup_total_insert. repeat case_decide; intuition. }
  assert (Hlen : forall (n : machine) (a : nat) (p : t),
             length (stack (assign_at n a p)) = length (stack n)).
  { intros. unfold assign_at; simpl. apply length_insert. }
  assert (Hsw : forall X (get : t -> X) (set : X -> t -> t) (n : machine),
             length (stack (swap_member get set n lhs rhs)) = length (stack n)).
  { intros. unfold swap_member. now rewrite !Hlen. }
  unfold swap, swap_member.
  repeat split.
  - rewrite !Hget by (rewrite ?Hlen; lia).
    destruct (decide (lhs = rhs)) as [->|Hne].
    + repeat (rewrite ?Hget by (rewrite ?Hlen; lia); repeat case_decide;
              try congruence).
      destruct (deref m rhs) as [? [?] [?]]; reflexivity.
    + repeat (rewrite ?Hget by (rewrite ?Hlen; lia); repeat case_decide;
              try congruence).
      destruct (deref m lhs) as [? [?] [?]], (deref m rhs) as [? [?] [?]];
        reflexivity.
  - repeat (rewrite ?Hget by (rewrite ?Hlen; lia); repeat case_decide;
            try congruence).
    + destruct (deref m lhs) as [? [?] [?]]; reflexivity.
    + destruct (deref m lhs) as [? [?] [?]], (deref m rhs) as [? [?] [?]];
        reflexivity.
  - intros c Hc1 Hc2.
    repeat (rewrite ?Hget by (rewrite ?Hlen; lia); repeat case_decide;
            try congruence).
Qed.

End Assignment.

(** ** Timer arguments *)

Section Timers.
Context {State : Type}.

(** C8: for every [due_time] below zero, [start] on either kind of timer
    fails with the invalid-argument condition whose message is
    "due_time must be greater than or equal to zero". *)
Theorem start_rejects_negative_due_time
    (tm : timer.t State) (due_time period : Z) :
  due_time < 0 ->
  timer.start tm due_time period =
    inl (timer.invalid_argument
           "due_time must be greater than or equal to zero").
Proof.
  intros H. unfold timer.start.
  now rewrite (proj2 (Z.ltb_lt due_time 0) H).
Qed.

(** C9: for every [period] below zero and every [due_time] at or above
    zero, [start] on either kind of timer fails with the invalid-argument
    condition whose message is
    "period must be greater than or equal to zero". *)
Theorem start_rejects_negative_period
    (tm : timer.t State) (due_time period : Z) :
  0 <= due_time -> period < 0 ->
  timer.start tm due_time period =
    inl (timer.invalid_argument
           "period must be greater than or equal to zero").
Proof.
  intros Hd Hp. unfold timer.start.
  rewrite (proj2 (Z.ltb_ge due_time 0) Hd).
  now rewrite (proj2 (Z.ltb_lt period 0) Hp).
Qed.

(** With both arguments at or above zero the timer is armed. *)
Lemma start_arms (tm : timer.t State) (due_time period : Z) :
  0 <= due_time -> 0 <= period ->
  timer.start tm due_time period =
    inr (timer.make (timer.which tm) (timer.state tm)
           (timer.started due_time period)).
Proof.
  intros Hd Hp. unfold timer.start.
  rewrite (proj2 (Z.ltb_ge due_time 0) Hd).
  now rewrite (proj2 (Z.ltb_ge period 0) Hp).
Qed.

End Timers.

(** ** The properties at the sample values *)

Example close_valid_sample :
  process_information.close win32_traits win32_traits samples.valid [] =
    (ctor_default win32_traits win32_traits, [CloseHandle 5; CloseHandle 7]).
Proof. reflexivity. Qed.

(** [close()] leaves a half-valid object alone; [reset] still closes its one
    valid handle, through the handle's own [reset]. *)
Example reset_half_valid_sample :
  reset_deconstructed win32_traits win32_traits samples.half_valid (0, 2, 6, 8) [] =
    (true, make 2 (unique_handle.make 6) (unique_handle.make 8), [CloseHandle 5]).
Proof. reflexivity. Qed.

(** The guard of [reset] compares the thread id as well: the same two
    handles under another thread id are closed and then adopted. *)
Example reset_same_handles_sample :
  reset_deconstructed win32_traits win32_traits samples.valid (77, 2, 5, 7) [] =
    (true, make 2 (unique_handle.make 5) (unique_handle.make 7),
     [CloseHandle 5; CloseHandle 7]).
Proof. reflexivity. Qed.

Example release_sample :
  release win32_traits win32_traits samples.query id_query_first samples.valid =
    ((77, 1, 5, 7), ctor_default win32_traits win32_traits)
  /\ release win32_traits win32_traits samples.query handle_release_first
       samples.valid =
     ((0, 1, 5, 7), ctor_default win32_traits win32_traits).
Proof. split; reflexivity. Qed.

Lemma close_frame_witness :
  process_information.op_bool win32_traits win32_traits samples.half_valid = false
  /\ process_information.close win32_traits win32_traits samples.half_valid []
     = (samples.half_valid, []).
Proof.
  split; [reflexivity|].
  apply (close_frame win32_traits win32_traits samples.half_valid []).
  reflexivity.
Defined.

Lemma native_handle_round_trip_witness :
  (forall id, samples.query (hProcess samples.created) = Some id ->
              dwProcessId samples.created = id)
  /\ hProcess (native_handle win32_traits samples.query samples.valid) = 5
  /\ hThread (native_handle win32_traits samples.query samples.valid) = 7
  /\ dwThreadId (native_handle win32_traits samples.query samples.valid) = 1
  /\ dwProcessId (native_handle win32_traits samples.query samples.valid) = 77.
Proof.
  assert (Hos : forall id, samples.query (hProcess samples.created) = Some id ->
                           dwProcessId samples.created = id).
  { intros id [= <-]. reflexivity. }
  split; [exact Hos|].
  exact (native_handle_round_trip win32_traits samples.query
           samples.created Hos).
Defined.

Lemma move_assign_on_the_code_witness :
  process_information.move_assign win32_traits win32_traits samples.query
    id_query_first 100 0 1 samples.two_objects = OutOfFuel
  /\ process_information.move_assign win32_traits win32_traits samples.query
       id_query_first 100 0 0 samples.two_objects = Done samples.two_objects.
Proof.
  split.
  - apply (move_assign_on_the_code win32_traits win32_traits samples.query
             id_query_first 99 samples.two_objects 0 1); simpl; lia.
  - apply (move_assign_on_the_code win32_traits win32_traits samples.query
             id_query_first 99 samples.two_objects 0 0); simpl; lia.
Defined.

Lemma friend_swap_exchanges_witness :
  deref (swap samples.two_objects 0 1) 0 = deref samples.two_objects 1
  /\ deref (swap samples.two_objects 0 1) 1 = deref samples.two_objects 0.
Proof.
  destruct (friend_swap_exchanges samples.two_objects 0 1) as (H1 & H2 & _);
    [simpl; lia | simpl; lia |].
  split; [exact H1 | exact H2].
Defined.

Lemma start_rejects_negative_due_time_witness :
  timer.start samples.delay (-50) 100 =
    inl (timer.invalid_argument "due_time must be greater than or equal to zero")
  /\ timer.start samples.sync (-100) 100 =
       inl (timer.invalid_argument "due_time must be greater than or equal to zero").
Proof.
  split; apply start_rejects_negative_due_time; lia.
Defined.

Lemma start_rejects_negative_period_witness :
  timer.start samples.delay 0 (-50) =
    inl (timer.invalid_argument "period must be greater than or equal to zero")
  /\ timer.start samples.sync 0 (-100) =
       inl (timer.invalid_argument "period must be greater than or equal to zero").
Proof.
  split; apply start_rejects_negative_period; lia.
Defined.

(** ** Construction, destruction and transfer of ownership *)

Section Ownership.
Variables PT TT : handle_traits.
Variable GetProcessId : HANDLE -> option DWORD.

Local Abbreviation op_bool := (process_information.op_bool PT TT).
Local Abbreviation close := (process_information.close PT TT).
Local Abbreviation dtor := (process_information.dtor PT TT).
Local Abbreviation owned := (process_information.owned PT TT).
Local Abbreviation release := (process_information.release PT TT GetProcessId).
Local Abbreviation ctor_move := (process_information.ctor_move PT TT GetProcessId).
Local Abbreviation ctor_default := (process_information.ctor_default PT TT).

Lemma dtor_trace (q : t) (w : trace) : dtor q w = (tt, w ++ owned q).
Proof.
  unfold process_information.dtor. unfold bind at 1.
  destruct (op_bool q) eqn:Hq.
  - rewrite (close_valid _ _ _ _ Hq).
    apply andb_true_iff in Hq as [H1 H2].
    unfold process_information.owned. rewrite H1, H2.
    unfold bind, unique_handle.dtor, unique_handle.op_bool, ret. simpl.
    now rewrite (invalid_is_not_valid PT), (invalid_is_not_valid TT).
  - rewrite (close_not_valid _ _ _ _ Hq).
    unfold process_information.owned, bind, unique_handle.dtor, call, ret,
      process_information.op_bool, unique_handle.op_bool in *.
    destruct (is_valid PT (unique_handle.m_handle (m_process q)));
      destruct (is_valid TT (unique_handle.m_handle (m_process_thread_handle q)));
      simpl in *; try discriminate; now rewrite ?app_nil_r.
Qed.

(** X2: The destructor closes every valid handle the object owns, once, and
    nothing else.  A half-valid object, which [close()] leaves alone, has
    its one valid handle closed by the destructor of that member; a
    default-constructed object closes nothing. *)
Theorem dtor_closes_what_is_owned (p : t) (w : trace) :
  dtor p w = (tt, w ++ owned p)
  /\ dtor ctor_default w = (tt, w).
Proof.
  split; [apply dtor_trace|].
  rewrite dtor_trace. unfold ctor_default, unique_handle.empty.
  now rewrite owned_empty_object, app_nil_r.
Qed.

Lemma dtor_closes_nothing_when_empty (w : trace) : dtor ctor_default w = (tt, w).
Proof.
  unfold process_information.dtor. unfold bind at 1.
  rewrite close_not_valid by apply empty_object_is_empty.
  unfold bind, unique_handle.dtor, unique_handle.op_bool, ret,
    process_information.ctor_default, unique_handle.empty. simpl.
  now rewrite (invalid_is_not_valid PT), (invalid_is_not_valid TT).
Qed.

(** X3: The move constructor gives the new object exactly the thread id and
    the handles of its source, leaves the source as a default-constructed
    object, and closes no handle, whichever way the arguments of
    [make_tuple] are evaluated. *)
Theorem ctor_move_transfers (order : argument_order) (other : t) (w : trace) :
  ctor_move order other w = ((other, ctor_default), w)
  /\ op_bool (ctor_move order other w).1.2 = false.
Proof.
  assert (H : ctor_move order other w = ((other, ctor_default), w)).
  { unfold process_information.ctor_move, process_information.release,
      unique_handle.release, unique_handle.reset, unique_handle.empty,
      unique_handle.op_bool, bind, call, ret,
      process_information.ctor_default. simpl.
    rewrite (invalid_is_not_valid PT), (invalid_is_not_valid TT). simpl.
    destruct other as [tid [hp] [ht]]. reflexivity. }
  split; [exact H|]. rewrite H. simpl.
  apply empty_object_is_empty.
Qed.

(** X4: [release()] hands the resources over: the tuple carries the thread id
    and both raw handles, the object is left as a default-constructed one,
    and from then on neither [close()] nor the destructor closes anything. *)
Theorem release_transfers_ownership (order : argument_order) (p : t) (w : trace) :
  let released := release order p in
  (get1 released.1, get2 released.1, get3 released.1) = triple p
  /\ released.2 = ctor_default
  /\ op_bool released.2 = false
  /\ close released.2 w = (released.2, w)
  /\ dtor released.2 w = (tt, w).
Proof.
  cbv zeta.
  assert (He : (release order p).2 = ctor_default) by reflexivity.
  rewrite He.
  assert (Hb : op_bool ctor_default = false) by apply empty_object_is_empty.
  repeat split; try assumption.
  - now apply close_not_valid.
  - apply dtor_closes_nothing_when_empty.
Qed.

(** X11: A local object move-constructed from an object and then destroyed:
    the handles the object owned are closed, the object is left as a
    default-constructed one, and no other object is touched. *)
Theorem scoped_move_closes (order : argument_order) (m : machine) (a : nat) :
  (a < length (stack m))%nat ->
  destroy_top PT TT (construct_from PT TT GetProcessId order a m) =
    {| stack := <[a := ctor_default]> (stack m);
       os := os m ++ owned (deref m a) |}.
Proof.
  intros Ha. rewrite construct_from_spec.
  unfold destroy_top, deref. simpl.
  rewrite length_app, length_insert. simpl.
  replace (pred (length (stack m) + 1)) with (length (stack m)) by lia.
  rewrite (list_lookup_total_middle _ [] _ (length (stack m)))
    by now rewrite length_insert.
  rewrite dtor_trace. simpl.
  rewrite take_app_length' by now rewrite length_insert.
  reflexivity.
Qed.

End Ownership.

(** ** The friend swap as an operation on the objects *)

Lemma machine_ext (m m' : machine) :
  length (stack m) = length (stack m') ->
  os m = os m' ->
  (forall c, deref m c = deref m' c) ->
  m = m'.
Proof.
  destruct m as [l w], m' as [l' w']. unfold deref; simpl.
  intros Hlen -> Hc. f_equal.
  apply (list_eq_same_length _ _ (length l')); [reflexivity | exact Hlen |].
  intros i x y Hi Hx Hy.
  assert (Hx' : l !!! i = x) by now apply list_lookup_total_correct.
  assert (Hy' : l' !!! i = y) by now apply list_lookup_total_correct.
  rewrite <- Hx', <- Hy'. apply Hc.
Qed.

Lemma deref_assign_at (n : machine) (a c : nat) (p : t) :
  (a < length (stack n))%nat ->
  deref (assign_at n a p) c = if decide (a = c) then p else deref n c.
Proof.
  intros Hlt. unfold deref, assign_at; simpl.
  rewrite list_lookup_total_insert. repeat case_decide; intuition.
Qed.

Lemma length_assign_at (n : machine) (a : nat) (p : t) :
  length (stack (assign_at n a p)) = length (stack n).
Proof. unfold assign_at; simpl. apply length_insert. Qed.

Lemma swap_pointwise (m : machine) (lhs rhs : nat) :
  (lhs < length (stack m))%nat -> (rhs < length (stack m))%nat ->
  length (stack (swap m lhs rhs)) = length (stack m)
  /\ os (swap m lhs rhs) = os m
  /\ (forall c, deref (swap m lhs rhs) c =
                if decide (c = lhs) then deref m rhs
                else if decide (c = rhs) then deref m lhs
                else deref m c).
Proof.
  intros Hl Hr. unfold swap, swap_member.
  split; [now rewrite !length_assign_at|]. split; [reflexivity|].
  intros c. destruct (decide (lhs = rhs)) as [->|Hne].
  - repeat (rewrite ?deref_assign_at by (rewrite ?length_assign_at; lia);
            repeat case_decide; try congruence);
      destruct (deref m rhs) as [? [?] [?]]; reflexivity.
  - repeat (rewrite ?deref_assign_at by (rewrite ?length_assign_at; lia);
            repeat case_decide; try congruence);
      try reflexivity;
      destruct (deref m lhs) as [? [?] [?]], (deref m rhs) as [? [?] [?]];
      reflexivity.
Qed.

(** X12: The friend [swap] does not depend on the order of its two arguments,
    and swapping the same two objects twice restores every object. *)
Theorem friend_swap_symmetric_involutive (m : machine) (lhs rhs : nat) :
  (lhs < length (stack m))%nat -> (rhs < length (stack m))%nat ->
  swap m lhs rhs = swap m rhs lhs
  /\ swap (swap m lhs rhs) lhs rhs = m.
Proof.
  intros Hl Hr.
  destruct (swap_pointwise m lhs rhs Hl Hr) as (L1 & O1 & D1).
  destruct (swap_pointwise m rhs lhs Hr Hl) as (L2 & O2 & D2).
  split.
  - apply machine_ext; [congruence | congruence |].
    intros c. rewrite D1, D2. repeat case_decide; congruence.
  - destruct (swap_pointwise (swap m lhs rhs) lhs rhs) as (L3 & O3 & D3);
      [lia | lia |].
    apply machine_ext; [congruence | congruence |].
    intros c. rewrite D3, !D1. repeat case_decide; congruence.
Qed.

(** ** Views of an object and the two overloads of reset *)

Section Views.
Variables PT TT : handle_traits.
Variable GetProcessId : HANDLE -> option DWORD.

Local Abbreviation op_bool := (process_information.op_bool PT TT).
Local Abbreviation native_handle := (process_information.native_handle PT GetProcessId).
Local Abbreviation release := (process_information.release PT TT GetProcessId).
Local Abbreviation get_process_id := (process_information.get_process_id PT GetProcessId).
Local Abbreviation reset_deconstructed := (process_information.reset_deconstructed PT TT).
Local Abbreviation reset_native := (process_information.reset_native PT TT).

Lemma native_handle_process_id (p : t) :
  dwProcessId (native_handle p) = default 0 (get_process_id p).
Proof.
  unfold process_information.native_handle, process_information.get_process_id,
    process_handle_get_process_id. simpl.
  now destruct (unique_handle.op_bool PT (m_process p)).
Qed.

(** X5: The tuple [release()] returns carries the same thread id and handles as
    [native_handle()] taken just before.  Its process id is the one of
    [native_handle()] only when the id is queried before the process handle
    is released; when the handle is released first the id is 0, whatever
    the OS would have reported. *)
Theorem release_agrees_with_native_handle (p : t) :
  let view := native_handle p in
  (release id_query_first p).1 =
    (dwProcessId view, dwThreadId view, hProcess view, hThread view)
  /\ (release handle_release_first p).1 =
       (0, dwThreadId view, hProcess view, hThread view)
  /\ dwProcessId view = default 0 (get_process_id p).
Proof.
  cbv zeta. split; [|split; [|apply native_handle_process_id]].
  - rewrite native_handle_process_id. reflexivity.
  - unfold process_information.release, process_handle_get_process_id,
      unique_handle.release, unique_handle.op_bool. simpl.
    now rewrite (invalid_is_not_valid PT).
Qed.

(** X6: Wrapping the structure [native_handle()] returns gives back the same
    object, the object compares equal to that structure, and the getters
    read the fields of the structure. *)
Theorem native_view_round_trip (p : t) :
  from_native (native_handle p) = p
  /\ eq_native p (native_handle p) = true
  /\ get_native_process_handle p = hProcess (native_handle p)
  /\ get_native_process_thread_handle p = hThread (native_handle p)
  /\ get_native_process_thread_id p = dwThreadId (native_handle p).
Proof.
  split.
  - destruct p as [tid [hp] [ht]]. reflexivity.
  - split; [|repeat split].
    apply eq_native_triple. reflexivity.
Qed.

(** X7: An object built from a native structure compares equal to it in both
    argument orders, whatever process id the structure carries, and [reset]
    with that structure then does nothing: no handle is closed and the
    result is the validity of the two handles. *)
Theorem from_native_equals_its_source (s : PROCESS_INFORMATION) (w : trace) :
  eq_native (from_native s) s = true
  /\ native_eq s (from_native s) = true
  /\ reset_native (from_native s) s w =
       (is_valid PT (hProcess s) && is_valid TT (hThread s), from_native s, w).
Proof.
  assert (H : eq_native (from_native s) s = true).
  { apply eq_native_triple. reflexivity. }
  split; [exact H|]. split; [exact H|].
  unfold process_information.reset_native. now rewrite H.
Qed.

(** X8: Comparing an object with the native view or with the released tuple of
    another object gives the same answer as comparing the two objects field
    by field. *)
Theorem comparison_against_views (order : argument_order) (p q : t) :
  eq_native p (native_handle q) = same_fields p q
  /\ native_eq (native_handle q) p = same_fields p q
  /\ eq_deconstructed p (release order q).1 = same_fields p q
  /\ deconstructed_eq (release order q).1 p = same_fields p q.
Proof.
  repeat split.
Qed.

(** X9: The two overloads of [reset] agree: resetting to a native structure is
    resetting to the tuple of its thread id and handles, whatever process
    id either of them carries. *)
Theorem reset_overloads_agree (p : t) (s : PROCESS_INFORMATION) (id : DWORD) (w : trace) :
  reset_native p s w =
    reset_deconstructed p (id, dwThreadId s, hProcess s, hThread s) w.
Proof.
  unfold process_information.reset_native, process_information.reset_deconstructed.
  change (eq_deconstructed p (id, dwThreadId s, hProcess s, hThread s))
    with (eq_native p s).
  destruct (eq_native p s); reflexivity.
Qed.

(** X10: After [reset], in either branch, the object compares equal to the
    incoming value and the result is the object's [operator bool()]; a
    second [reset] with the same value changes nothing and closes nothing. *)
Theorem reset_establishes_equality (p : t) (d : deconstruct_type) (w : trace) :
  let r := reset_deconstructed p d w in
  eq_deconstructed r.1.2 d = true
  /\ r.1.1 = op_bool r.1.2
  /\ reset_deconstructed r.1.2 d r.2 = r.
Proof.
  cbv zeta.
  assert (H : exists q w', reset_deconstructed p d w = (op_bool q, q, w')
                           /\ eq_deconstructed q d = true).
  { destruct (eq_deconstructed p d) eqn:He.
    - exists p, w. split; [|exact He].
      unfold process_information.reset_deconstructed. now rewrite He.
    - exists (make (get1 d) (unique_handle.make (get2 d))
                (unique_handle.make (get3 d))), (w ++ owned PT TT p).
      split.
      + rewrite (reset_deconstructed_unequal _ _ _ _ _ He). reflexivity.
      + apply eq_deconstructed_triple. reflexivity. }
  destruct H as (q & w' & -> & Hq). simpl.
  repeat split; [exact Hq|].
  unfold process_information.reset_deconstructed. now rewrite Hq.
Qed.

End Views.

Lemma scoped_move_closes_witness :
  destroy_top win32_traits win32_traits
    (construct_from win32_traits win32_traits samples.query id_query_first 0
       samples.two_objects) =
    {| stack := [ctor_default win32_traits win32_traits;
                 ctor_default win32_traits win32_traits];
       os := [CloseHandle 5; CloseHandle 7] |}.
Proof.
  apply (scoped_move_closes win32_traits win32_traits samples.query
           id_query_first samples.two_objects 0).
  simpl. lia.
Defined.

Lemma friend_swap_symmetric_involutive_witness :
  swap samples.two_objects 0 1 = swap samples.two_objects 1 0
  /\ swap (swap samples.two_objects 0 1) 0 1 = samples.two_objects.
Proof.
  apply (friend_swap_symmetric_involutive samples.two_objects 0 1);
    simpl; lia.
Defined.

(** ** The order of closing and adopting in reset *)

Section ResetOrder.
Variables PT TT : handle_traits.

Local Abbreviation op_bool := (process_information.op_bool PT TT).
Local Abbreviation owned := (process_information.owned PT TT).
Local Abbreviation reset_progress := (process_information.reset_progress PT TT).
Local Abbreviation closes_before_adopting :=
  (process_information.closes_before_adopting PT TT).
Local Abbreviation empty_object :=
  (make 0 (unique_handle.make (invalid PT)) (unique_handle.make (invalid TT))).

(** On a valid object [close()] has closed both handles before the first
    incoming value is stored; the handle resets find empty slots. *)
Lemma reset_progress_valid (p : t) (tid : DWORD) (hp ht : HANDLE) (w : trace) :
  op_bool p = true ->
  reset_progress p tid hp ht w =
    {| after_close := (empty_object, w ++ owned p);
       after_thread_id := (set_thread_id tid empty_object, w ++ owned p);
       after_process :=
         (make tid (unique_handle.make hp) (unique_handle.make (invalid TT)),
          w ++ owned p);
       after_thread_handle :=
         (make tid (unique_handle.make hp) (unique_handle.make ht),
          w ++ owned p) |}.
Proof.
  intros Hp. unfold process_information.reset_progress.
  rewrite (close_valid _ _ _ _ Hp).
  apply andb_true_iff in Hp as [H1 H2].
  unfold process_information.owned. rewrite H1, H2.
  unfold unique_handle.reset, bind, call, ret, unique_handle.op_bool. simpl.
  rewrite (invalid_is_not_valid PT), (invalid_is_not_valid TT). reflexivity.
Qed.

(** On an object that is not valid [close()] does nothing: the thread id is
    stored with nothing closed yet, and each handle that is still valid is
    closed by the statement that stores the new handle in its slot. *)
Lemma reset_progress_not_valid (p : t) (tid : DWORD) (hp ht : HANDLE) (w : trace) :
  op_bool p = false ->
  reset_progress p tid hp ht w =
    {| after_close := (p, w);
       after_thread_id := (set_thread_id tid p, w);
       after_process :=
         (make tid (unique_handle.make hp) (m_process_thread_handle p),
          w ++ (if unique_handle.op_bool PT (m_process p)
                then [CloseHandle (unique_handle.m_handle (m_process p))]
                else []));
       after_thread_handle :=
         (make tid (unique_handle.make hp) (unique_handle.make ht),
          w ++ owned p) |}.
Proof.
  intros Hp. unfold process_information.reset_progress.
  rewrite (close_not_valid _ _ _ _ Hp).
  unfold process_information.owned, unique_handle.reset, bind, call, ret,
    unique_handle.op_bool. simpl.
  destruct (is_valid PT (unique_handle.m_handle (m_process p)));
    destruct (is_valid TT (unique_handle.m_handle (m_process_thread_handle p)));
    simpl; rewrite ?app_nil_r, <- ?app_assoc; reflexivity.
Qed.

Lemma reset_deconstructed_finish (p : t) (d : deconstruct_type) (w : trace) :
  eq_deconstructed p d = false ->
  reset_deconstructed PT TT p d w =
    finish PT TT (reset_progress p (get1 d) (get2 d) (get3 d) w).
Proof.
  intros H. unfold reset_deconstructed. rewrite H.
  unfold finish, process_information.reset_progress, bind, ret.
  destruct (process_information.close PT TT p w) as [p1 w1]. simpl.
  destruct (unique_handle.reset PT (m_process p1) (get2 d) w1) as [[b3 u3] w3].
  simpl.
  destruct (unique_handle.reset TT (m_process_thread_handle p1) (get3 d) w3)
    as [[b4 u4] w4].
  reflexivity.
Qed.

Lemma reset_native_finish (p : t) (s : PROCESS_INFORMATION) (w : trace) :
  eq_native p s = false ->
  reset_native PT TT p s w =
    finish PT TT (reset_progress p (dwThreadId s) (hProcess s) (hThread s) w).
Proof.
  intros H. unfold reset_native. rewrite H.
  unfold finish, process_information.reset_progress, bind, ret.
  destruct (process_information.close PT TT p w) as [p1 w1]. simpl.
  destruct (unique_handle.reset PT (m_process p1) (hProcess s) w1)
    as [[b3 u3] w3].
  simpl.
  destruct (unique_handle.reset TT (m_process_thread_handle p1) (hThread s) w3)
    as [[b4 u4] w4].
  reflexivity.
Qed.

(** C6, as the code has it: both overloads of [reset] do nothing and return
    the current validity when the object already equals the incoming value.
    Otherwise they run [close()], store the thread id and reset the two
    handles; at the end every handle the object owned is closed, the object
    holds the incoming values and their validity is returned.  All closing
    comes before anything is adopted exactly when the object is valid or
    owns nothing.  On a valid object [close()] closes both handles first.
    On an object that is not valid [close()] closes nothing, the thread id
    is stored first, and a handle that is still valid is closed by the
    reset that stores the new handle in its slot. *)
Theorem reset_closes_and_adopts
    (p : t) (d : deconstruct_type) (s : PROCESS_INFORMATION) (w : trace) :
  (eq_deconstructed p d = true ->
   reset_deconstructed PT TT p d w = (op_bool p, p, w))
  /\ (eq_native p s = true ->
      reset_native PT TT p s w = (op_bool p, p, w))
  /\ (eq_deconstructed p d = false ->
      reset_deconstructed PT TT p d w =
        finish PT TT (reset_progress p (get1 d) (get2 d) (get3 d) w))
  /\ (eq_native p s = false ->
      reset_native PT TT p s w =
        finish PT TT (reset_progress p (dwThreadId s) (hProcess s) (hThread s) w))
  /\ (forall (tid : DWORD) (hp ht : HANDLE),
        let pr := reset_progress p tid hp ht w in
        let adopted := make tid (unique_handle.make hp) (unique_handle.make ht) in
        finish PT TT pr = (op_bool adopted, adopted, w ++ owned p)
        /\ (closes_before_adopting p tid hp ht w <->
            op_bool p = true \/ owned p = [])
        /\ (op_bool p = true ->
            after_close pr = (empty_object, w ++ owned p)
            /\ after_thread_id pr = (set_thread_id tid empty_object, w ++ owned p)
            /\ after_process pr =
                 (make tid (unique_handle.make hp)
                       (unique_handle.make (invalid TT)),
                  w ++ owned p))
        /\ (op_bool p = false ->
            after_close pr = (p, w)
            /\ after_thread_id pr = (set_thread_id tid p, w)
            /\ after_process pr =
                 (make tid (unique_handle.make hp) (m_process_thread_handle p),
                  w ++ (if unique_handle.op_bool PT (m_process p)
                        then [CloseHandle (unique_handle.m_handle (m_process p))]
                        else [])))).
Proof.
  split; [intros H; unfold reset_deconstructed; now rewrite H|].
  split; [intros H; unfold reset_native; now rewrite H|].
  split; [apply reset_deconstructed_finish|].
  split; [apply reset_native_finish|].
  intros tid hp ht. cbv zeta.
  unfold process_information.closes_before_adopting, finish.
  destruct (op_bool p) eqn:Hp.
  - rewrite (reset_progress_valid p tid hp ht w Hp). simpl.
    repeat split; auto; discriminate.
  - rewrite (reset_progress_not_valid p tid hp ht w Hp). simpl.
    repeat split; try discriminate.
    + intros Heq. right.
      rewrite <- (app_nil_r w) in Heq at 1.
      apply app_inv_head in Heq. now symmetry.
    + intros [Hc | Ho]; [discriminate|]. rewrite Ho. now rewrite app_nil_r.
Qed.

End ResetOrder.

(** On the half-valid sample (thread id 1, process handle 5, no thread
    handle) and the incoming value (0, 2, 6, 8) the guard fails and handle 5
    is owned; after the thread id 2 has been stored nothing is closed yet,
    and handle 5 is closed only by the statement that stores handle 6: the
    closing does not all come before the adopting. *)
Lemma reset_adopts_before_closing :
  eq_deconstructed samples.half_valid (0, 2, 6, 8) = false
  /\ process_information.owned win32_traits win32_traits samples.half_valid
     = [CloseHandle 5]
  /\ after_thread_id
       (process_information.reset_progress win32_traits win32_traits
          samples.half_valid 2 6 8 [])
     = (make 2 (unique_handle.make 5) (unique_handle.make 0), [])
  /\ after_process
       (process_information.reset_progress win32_traits win32_traits
          samples.half_valid 2 6 8 [])
     = (make 2 (unique_handle.make 6) (unique_handle.make 0), [CloseHandle 5])
  /\ ~ process_information.closes_before_adopting win32_traits win32_traits
         samples.half_valid 2 6 8 [].
Proof.
  repeat split. unfold process_information.closes_before_adopting. simpl.
  discriminate.
Qed.
